(** * cpUtils.executeCommand (src/utils/cpUtils.ts)

    A shallow embedding of the process runner of the extension: the
    function spawns a child process, registers four event handlers on it
    and settles a promise from the ['error'] and ['close'] handlers.

    The host (Node's [child_process] and [os] modules, the editor's output
    channel) is outside the repository.  It is modelled by what the code
    can observe of it: whether [cp.spawn] returns or throws and the
    sequence of events delivered to the handlers are inputs of the run, and
    every call the code makes on the host is recorded, in order, in a log
    of effects. *)

From Stdlib Require Import String Ascii List ZArith Lia Bool DecimalString.
Import ListNotations.
Local Open Scope string_scope.

Module cpUtils.

(** ** Strings of the source *)

(** The double quote character of the template literals. *)
Definition dquote : string := String (ascii_of_nat 34) EmptyString.

(** [Array.prototype.join] on an array of strings. *)
Fixpoint join (sep : string) (xs : list string) : string :=
  match xs with
  | [] => ""
  | [x] => x
  | x :: rest => x ++ sep ++ join sep rest
  end.

(** [`${code}`] for an integral number: its decimal numeral, with a
    leading minus sign when it is negative. *)
Definition numberToString (n : Z) : string :=
  NilZero.string_of_int (Z.to_int n).

(** [`${code}`] for the code of a ['close'] event: a number, or [null]. *)
Definition codeToString (code : option Z) : string :=
  match code with
  | Some n => numberToString n
  | None => "null"
  end.

(** [code !== 0] *)
Definition notZero (code : option Z) : bool :=
  match code with
  | Some n => negb (n =? 0)%Z
  | None => true
  end.

(** A string is truthy when it is not empty. *)
Definition truthy (s : string) : bool :=
  match s with
  | EmptyString => false
  | String _ _ => true
  end.

(** [workingDirectory || fallback] for [string | undefined]. *)
Definition orElse (workingDirectory : option string) (fallback : string) : string :=
  match workingDirectory with
  | Some s => if truthy s then s else fallback
  | None => fallback
  end.

(** ** Host objects *)

(** [cp.SpawnOptions], with the two fields the code sets. *)
Record SpawnOptions := mkOptions { cwd : string; shell : bool }.

(** The two readable streams of the child process. *)
Inductive stream := Stdout | Stderr.

(** What the code uses of its host, and does not define. *)
Class Host := {
  (** [vscode.OutputChannel]: an opaque host object. *)
  OutputChannel : Type;
  (** Node's [Buffer] and its [toString()]. *)
  Buffer : Type;
  bufferToString : Buffer -> string;
  (** The errors the child process emits with its ['error'] event. *)
  HostError : Type;
  (** [os.tmpdir()] and [os.EOL]. *)
  tmpdir : string;
  EOL : string
}.

Section Program.

Context {host : Host}.

(** [data: string | Buffer] *)
Inductive chunk :=
| Str (s : string)
| Buf (b : Buffer).

(** [data.toString()] *)
Definition toString (data : chunk) : string :=
  match data with
  | Str s => s
  | Buf b => bufferToString b
  end.

(** What a promise is rejected with: an error of the host, handed over
    as it is, or [new Error(message)]. *)
Inductive error :=
| Emitted (e : HostError)
| NewError (message : string).

(** The events the child process delivers to the registered handlers.
    ['close'] comes with the exit code of the process, or with [null]
    when a signal terminated it. *)
Inductive event :=
| Data (from : stream) (data : chunk)
| Error (e : HostError)
| Close (code : Z)
| CloseNull.

(** How the call of [cp.spawn] ends: it returns the child process, or it
    throws. *)
Inductive spawning :=
| Spawned
| SpawnThrew (e : HostError).

(** The calls the code makes on the host and on the promise's two
    functions, in the order they are made. *)
Inductive effect :=
| Spawn (command : string) (args : list string) (options : SpawnOptions)
| AppendLine (channel : OutputChannel) (value : string)
| Append (channel : OutputChannel) (value : string)
| Show (channel : OutputChannel)
| Resolve
| Reject (e : error).

(** The promise created by [new Promise(...)]. *)
Inductive promiseState :=
| Pending
| Fulfilled
| Rejected (e : error).

(** How the call of the [async] function ends. *)
Inductive completion :=
| Returned (value : string)
| Thrown (e : error).

(** The variables the closures share, the promise, the call's own
    completion once the [await] has resumed, and the log of effects. *)
Record state := mkState {
  cmdOutput : string;
  cmdOutputIncludingStderr : string;
  promise : promiseState;
  completed : option completion;
  log : list effect
}.

(** Statements are state transformers. *)
Definition stmt := state -> state.

Definition skip : stmt := fun st => st.

Definition seq (a b : stmt) : stmt := fun st => b (a st).

Notation "a ;; b" := (seq a b) (at level 61, right associativity).

Definition emit (e : effect) : stmt := fun st =>
  mkState (cmdOutput st) (cmdOutputIncludingStderr st) (promise st)
          (completed st) (log st ++ [e]).

Definition setCmdOutput (f : string -> string) : stmt := fun st =>
  mkState (f (cmdOutput st)) (cmdOutputIncludingStderr st) (promise st)
          (completed st) (log st).

Definition setCmdOutputIncludingStderr (f : string -> string) : stmt := fun st =>
  mkState (cmdOutput st) (f (cmdOutputIncludingStderr st)) (promise st)
          (completed st) (log st).

(** A promise is settled once: later calls of [resolve] and [reject] are
    made, and leave it as it is. *)
Definition settle (p : promiseState) : stmt := fun st =>
  match promise st with
  | Pending =>
      mkState (cmdOutput st) (cmdOutputIncludingStderr st) p
              (completed st) (log st)
  | _ => st
  end.

Definition resolve : stmt := emit Resolve ;; settle Fulfilled.

Definition reject (e : error) : stmt := emit (Reject e) ;; settle (Rejected e).

(** [if (outputChannel) { ... }] *)
Definition ifChannel (outputChannel : option OutputChannel)
    (body : OutputChannel -> stmt) : stmt :=
  match outputChannel with
  | Some channel => body channel
  | None => skip
  end.

Section Call.

(** The variables the handlers close over. *)
Variable outputChannel : option OutputChannel.
Variable command : string.
Variable formattedArgs : string.

(** [childProc.stdout.on('data', ...)] *)
Definition onStdoutData (data : chunk) : stmt :=
  let data := toString data in
  setCmdOutput (fun s => s ++ data) ;;
  setCmdOutputIncludingStderr (fun s => s ++ data) ;;
  ifChannel outputChannel (fun channel => emit (Append channel data)).

(** [childProc.stderr.on('data', ...)] *)
Definition onStderrData (data : chunk) : stmt :=
  let data := toString data in
  setCmdOutputIncludingStderr (fun s => s ++ data) ;;
  ifChannel outputChannel (fun channel => emit (Append channel data)).

(** [childProc.on('error', reject)] *)
Definition onError (e : HostError) : stmt := reject (Emitted e).

(** The three template literals that mention the command. *)
Definition runningLine : string :=
  "Running command: " ++ dquote ++ command ++ " " ++ formattedArgs
    ++ dquote ++ "...".

Definition finishedLine : string :=
  "Finished running command: " ++ dquote ++ command ++ " " ++ formattedArgs
    ++ dquote ++ ".".

Definition genericMessage : string :=
  "Failed to run " ++ dquote ++ command ++ dquote
    ++ " command. Check output window for more details.".

Definition detailedMessage (code : option Z) (output : string) : string :=
  "Command " ++ dquote ++ command ++ " " ++ formattedArgs ++ dquote
    ++ " failed with exit code " ++ dquote ++ codeToString code ++ dquote
    ++ ":" ++ EOL ++ output.

(** [childProc.on('close', ...)] *)
Definition onClose (code : option Z) : stmt := fun st =>
  if notZero code then
    match outputChannel with
    | Some channel =>
        (emit (Show channel) ;; reject (NewError genericMessage)) st
    | None =>
        reject (NewError (detailedMessage code (cmdOutputIncludingStderr st))) st
    end
  else
    (ifChannel outputChannel (fun channel => emit (AppendLine channel finishedLine)) ;;
     resolve) st.

(** The handler an event runs. *)
Definition handle (ev : event) : stmt :=
  match ev with
  | Data Stdout data => onStdoutData data
  | Data Stderr data => onStderrData data
  | Error e => onError e
  | Close code => onClose (Some code)
  | CloseNull => onClose None
  end.

(** The [await]: once the promise is settled, the function resumes in a
    microtask, after the handler that settled it has returned.  It returns
    [cmdOutput] when the promise is fulfilled and throws what the promise
    was rejected with. *)
Definition resume : stmt := fun st =>
  match completed st with
  | Some _ => st
  | None =>
      match promise st with
      | Pending => st
      | Fulfilled =>
          mkState (cmdOutput st) (cmdOutputIncludingStderr st) (promise st)
                  (Some (Returned (cmdOutput st))) (log st)
      | Rejected e =>
          mkState (cmdOutput st) (cmdOutputIncludingStderr st) (promise st)
                  (Some (Thrown e)) (log st)
      end
  end.

(** One turn of the event loop: a handler, then the microtasks. *)
Definition turn (st : state) (ev : event) : state :=
  (handle ev ;; resume) st.

Definition turns (events : list event) (st : state) : state :=
  fold_left turn events st.

End Call.

(** The state at [let cmdOutput = ''; let cmdOutputIncludingStderr = '';]. *)
Definition initial : state := mkState "" "" Pending None [].

(** [executeCommand(outputChannel, workingDirectory, command, ...args)],
    run against what [cp.spawn] does and the events the child process
    delivers.  When [cp.spawn] throws, inside the executor of the promise,
    the promise is rejected with what was thrown: the rest of the executor
    is not run, no handler is registered, and the call throws once the
    [await] has resumed. *)
Definition executeCommand (outputChannel : option OutputChannel)
    (workingDirectory : option string) (command : string)
    (args : list string) (spawn : spawning) (events : list event) : state :=
  let workingDirectory := orElse workingDirectory tmpdir in
  let formattedArgs := join " " args in
  let options := mkOptions workingDirectory true in
  match spawn with
  | SpawnThrew e =>
      (emit (Spawn command args options) ;;
       settle (Rejected (Emitted e)) ;;
       resume) initial
  | Spawned =>
      let started :=
        (emit (Spawn command args options) ;;
         ifChannel outputChannel (fun channel =>
           emit (AppendLine channel (runningLine command formattedArgs)))) initial in
      turns outputChannel command formattedArgs events started
  end.

(** ** The vocabulary of the specification *)

(** The output of a process: its chunks, each with the stream it came
    from, in arrival order. *)
Definition output := list (stream * chunk).

(** The events that deliver an output. *)
Definition outputEvents (chunks : output) : list event :=
  map (fun c => Data (fst c) (snd c)) chunks.

(** The output among the events of a run. *)
Definition outputOf (events : list event) : output :=
  flat_map (fun ev => match ev with Data from data => [(from, data)] | _ => [] end)
           events.

Definition isStdout (c : stream * chunk) : bool :=
  match fst c with Stdout => true | Stderr => false end.

Definition isStderr (c : stream * chunk) : bool :=
  match fst c with Stdout => false | Stderr => true end.

(** The standard-output chunks of an output. *)
Definition fromStdout (chunks : output) : output := filter isStdout chunks.

(** The standard-error chunks of an output. *)
Definition fromStderr (chunks : output) : output := filter isStderr chunks.

(** The texts of the chunks, and their concatenation. *)
Definition texts (chunks : output) : list string :=
  map (fun c => toString (snd c)) chunks.

Definition textOf (chunks : output) : string :=
  fold_right append "" (texts chunks).

(** The calls that append the chunks of an output to a channel, when
    there is one. *)
Definition appends (outputChannel : option OutputChannel) (chunks : output)
    : list effect :=
  match outputChannel with
  | Some channel => map (Append channel) (texts chunks)
  | None => []
  end.

(** [a] occurs in the log before an occurrence of [b]. *)
Definition precedes (a b : effect) (l : list effect) : Prop :=
  exists before after, l = (before ++ b :: after)%list /\ In a before.




(** A ['close'] event whose code is not 0: an exit code other than 0,
    or [null]. *)
Definition closesNonZero (ev : event) : bool :=
  match ev with
  | Close code => notZero (Some code)
  | CloseNull => notZero None
  | _ => false
  end.

(** An event that delivers a chunk, and settles nothing. *)
Definition isData (ev : event) : bool :=
  match ev with
  | Data _ _ => true
  | _ => false
  end.

(** The channel a call is made on. *)
Definition channelOf (e : effect) : option OutputChannel :=
  match e with
  | AppendLine channel _ | Append channel _ | Show channel => Some channel
  | _ => None
  end.

(** What [append] was called with, and on which channel, in order. *)
Definition appendedOf (l : list effect) : list (OutputChannel * string) :=
  flat_map (fun e => match e with Append channel value => [(channel, value)] | _ => [] end)
           l.

(** Between two turns of the event loop the call has completed exactly
    when the promise is settled. *)
Definition quiescent (st : state) : Prop :=
  completed st = None <-> promise st = Pending.

End Program.

(** ** A host to run examples on

    Channels are named, buffers hold their text, errors are their codes. *)
Definition newline : string := String (ascii_of_nat 10) EmptyString.

Definition exampleHost : Host := {|
  OutputChannel := string;
  Buffer := string;
  bufferToString := fun b => b;
  HostError := string;
  tmpdir := "/tmp";
  EOL := newline
|}.

(** ** Strings *)

Lemma append_nil_r (s : string) : s ++ "" = s.
Proof. induction s as [|c s IH]; simpl; [reflexivity | now rewrite IH]. Qed.

Lemma append_assoc (s t u : string) : (s ++ t) ++ u = s ++ (t ++ u).
Proof. induction s as [|c s IH]; simpl; [reflexivity | now rewrite IH]. Qed.

Lemma length_append (s t : string) :
  String.length (s ++ t) = String.length s + String.length t.
Proof. induction s as [|c s IH]; simpl; [reflexivity | now rewrite IH]. Qed.

Lemma length_zero (s : string) : String.length s = 0 -> s = "".
Proof. destruct s; simpl; [reflexivity | discriminate]. Qed.

Section Properties.

Context {host : Host}.

(** ** The output of a run *)

Lemma textOf_cons (c : stream * chunk) (chunks : output) :
  textOf (c :: chunks) = toString (snd c) ++ textOf chunks.
Proof. reflexivity. Qed.

Lemma textOf_app (xs ys : output) : textOf (xs ++ ys)%list = textOf xs ++ textOf ys.
Proof.
  induction xs as [|c xs IH]; [reflexivity|].
  simpl app. rewrite !textOf_cons, IH. symmetry. apply append_assoc.
Qed.

Lemma outputOf_outputEvents (chunks : output) :
  outputOf (outputEvents chunks) = chunks.
Proof.
  induction chunks as [|[from data] chunks IH]; [reflexivity|].
  change (outputOf (outputEvents ((from, data) :: chunks)))
    with ((from, data) :: outputOf (outputEvents chunks)).
  now rewrite IH.
Qed.

Lemma outputOf_app (xs ys : list event) :
  outputOf (xs ++ ys)%list = (outputOf xs ++ outputOf ys)%list.
Proof. unfold outputOf. apply flat_map_app. Qed.

(** The combined text is as long as the two projections together. *)
Lemma length_textOf (chunks : output) :
  String.length (textOf chunks)
  = String.length (textOf (fromStdout chunks))
    + String.length (textOf (fromStderr chunks)).
Proof.
  induction chunks as [|[[|] data] chunks IH]; [reflexivity| |];
    unfold fromStdout, fromStderr in *; simpl filter;
    rewrite !textOf_cons, !length_append, IH; simpl; lia.
Qed.

Lemma textOf_empty (chunks : output) :
  String.length (textOf chunks) = 0 ->
  forall c, In c chunks -> toString (snd c) = "".
Proof.
  induction chunks as [|d chunks IH]; intros Hlen c Hin; [easy|].
  rewrite textOf_cons, length_append in Hlen.
  destruct Hin as [->|Hin].
  - apply length_zero. lia.
  - apply IH; [lia | exact Hin].
Qed.

(** The stdout-only text is the combined text exactly when standard
    error delivered no character. *)
Lemma stdout_text_is_combined_iff (chunks : output) :
  textOf (fromStdout chunks) = textOf chunks <->
  (forall data, In (Stderr, data) chunks -> toString data = "").
Proof.
  split.
  - intros Heq data Hin.
    assert (Hlen : String.length (textOf (fromStderr chunks)) = 0).
    { pose proof (length_textOf chunks) as H. rewrite <- Heq in H. lia. }
    apply (textOf_empty _ Hlen (Stderr, data)).
    unfold fromStderr. apply filter_In. split; [exact Hin | reflexivity].
  - induction chunks as [|[[|] data] chunks IH]; intros Hall; [reflexivity| |].
    + unfold fromStdout in *. simpl filter. rewrite !textOf_cons. f_equal.
      apply IH. intros d Hd. apply Hall. now right.
    + unfold fromStdout in *. simpl filter. rewrite textOf_cons. simpl snd.
      rewrite (Hall data) by now left. simpl.
      apply IH. intros d Hd. apply Hall. now right.
Qed.

(** ** The handlers *)

Section Handlers.

Variable outputChannel : option OutputChannel.
Variables command formattedArgs : string.

Local Abbreviation handle := (handle outputChannel command formattedArgs).
Local Abbreviation turn := (turn outputChannel command formattedArgs).
Local Abbreviation turns := (turns outputChannel command formattedArgs).

Lemma turns_app (xs ys : list event) (st : state) :
  turns (xs ++ ys)%list st = turns ys (turns xs st).
Proof. apply fold_left_app. Qed.

Lemma turns_cons (ev : event) (events : list event) (st : state) :
  turns (ev :: events) st = turns events (turn st ev).
Proof. reflexivity. Qed.

(** While the promise is pending, a chunk only grows the accumulators
    and, with a channel, is appended to it. *)
Lemma turn_data (from : stream) (data : chunk) (st : state) :
  promise st = Pending ->
  turn st (Data from data)
  = mkState (cmdOutput st ++ textOf (fromStdout [(from, data)]))
            (cmdOutputIncludingStderr st ++ toString data)
            Pending (completed st)
            (log st ++ appends outputChannel [(from, data)]).
Proof.
  destruct st as [out all p c l]; simpl; intros ->.
  destruct from, outputChannel, c; cbn;
    rewrite ?append_nil_r, ?app_nil_r; reflexivity.
Qed.

Lemma appends_app (xs ys : output) :
  appends outputChannel (xs ++ ys)%list
  = (appends outputChannel xs ++ appends outputChannel ys)%list.
Proof.
  unfold appends, texts. destruct outputChannel; [|reflexivity].
  now rewrite !map_app.
Qed.

Lemma turns_output (chunks : output) (st : state) :
  promise st = Pending ->
  turns (outputEvents chunks) st
  = mkState (cmdOutput st ++ textOf (fromStdout chunks))
            (cmdOutputIncludingStderr st ++ textOf chunks)
            Pending (completed st)
            (log st ++ appends outputChannel chunks).
Proof.
  revert st. induction chunks as [|[from data] chunks IH]; intros st Hp.
  - destruct st as [out all p c l]; simpl in *; subst.
    cbn. rewrite ?append_nil_r.
    destruct outputChannel; cbn; rewrite ?app_nil_r; reflexivity.
  - change (outputEvents ((from, data) :: chunks))
      with (Data from data :: outputEvents chunks).
    rewrite turns_cons, (turn_data from data st Hp), IH by reflexivity.
    cbn [cmdOutput cmdOutputIncludingStderr completed log].
    change ((from, data) :: chunks) with ([(from, data)] ++ chunks)%list.
    unfold fromStdout. rewrite filter_app. fold (fromStdout [(from, data)]).
    fold (fromStdout chunks).
    rewrite appends_app, !textOf_app, !append_assoc, <- app_assoc.
    f_equal. f_equal. unfold textOf; simpl. now rewrite append_nil_r.
Qed.

(** No handler touches the call's completion: only the resumption
    sets it, and only once. *)
Lemma completed_handle (ev : event) (st : state) :
  completed (handle ev st) = completed st.
Proof.
  destruct st as [out all p c l].
  destruct ev as [[|] data|e|code|]; cbn.
  - destruct outputChannel; reflexivity.
  - destruct outputChannel; reflexivity.
  - destruct p; reflexivity.
  - unfold onClose. simpl. destruct (negb (code =? 0)%Z), outputChannel, p; reflexivity.
  - unfold onClose. simpl. destruct outputChannel, p; reflexivity.
Qed.

Lemma completed_turn (ev : event) (st : state) (c : completion) :
  completed st = Some c -> completed (turn st ev) = Some c.
Proof.
  intros Hc. unfold cpUtils.turn, seq, resume.
  rewrite completed_handle, Hc. now rewrite completed_handle.
Qed.

Lemma completed_turns (events : list event) (st : state) (c : completion) :
  completed st = Some c -> completed (turns events st) = Some c.
Proof.
  revert st. induction events as [|ev events IH]; intros st Hc; [exact Hc|].
  rewrite turns_cons. apply IH, completed_turn, Hc.
Qed.



End Handlers.

(** ** The log of effects *)

Section Effects.

Variable outputChannel : option OutputChannel.
Variables command formattedArgs : string.

Local Abbreviation turn := (turn outputChannel command formattedArgs).
Local Abbreviation turns := (turns outputChannel command formattedArgs).

(** The log only grows, and no handler starts a process. *)
Lemma log_turn (ev : event) (st : state) :
  exists later, log (turn st ev) = (log st ++ later)%list /\
    forall c a o, ~ In (Spawn c a o) later.
Proof.
  destruct st as [out all p c l].
  destruct ev as [[|] data|e|code|];
    unfold cpUtils.turn, seq, handle, onClose; simpl;
    try destruct (negb (code =? 0)%Z);
    destruct outputChannel, c, p; cbn;
    eexists; (split;
      [ rewrite <- ?app_assoc; first [reflexivity | symmetry; apply app_nil_r]
      | simpl; intros ? ? ? H; intuition discriminate ]).
Qed.

Lemma log_turns (events : list event) (st : state) :
  exists later, log (turns events st) = (log st ++ later)%list /\
    forall c a o, ~ In (Spawn c a o) later.
Proof.
  revert st. induction events as [|ev events IH]; intros st.
  - exists []. split; [symmetry; apply app_nil_r | intros ? ? ? []].
  - rewrite turns_cons.
    destruct (IH (turn st ev)) as (later2 & E2 & N2).
    destruct (log_turn ev st) as (later1 & E1 & N1).
    exists (later1 ++ later2)%list. split.
    + now rewrite E2, E1, app_assoc.
    + intros c a o H. apply in_app_or in H as [H|H]; [eapply N1 | eapply N2]; eauto.
Qed.

(** The channel is shown by the ['close'] handler alone, on a code
    other than zero. *)
Lemma show_turn (channel : OutputChannel) (ev : event) (st : state) :
  In (Show channel) (log (turn st ev)) <->
  In (Show channel) (log st) \/
  (outputChannel = Some channel /\ closesNonZero ev = true).
Proof.
  destruct st as [out all p c l].
  destruct ev as [[|] data|e|code|];
    unfold cpUtils.turn, seq, handle, onClose; simpl;
    try destruct (negb (code =? 0)%Z); simpl;
    destruct outputChannel as [o|], c, p; cbn;
    rewrite ?in_app_iff; simpl;
    (split;
     [ intros H;
       repeat match goal with
         | H : _ \/ _ |- _ => destruct H
         | H : False |- _ => destruct H
         | H : Show _ = Show _ |- _ => injection H as ->
         end;
       try discriminate;
       first [ left; assumption | right; split; reflexivity ]
     | intros [H | (H & E)];
       [ tauto
       | try discriminate; injection H as <-; tauto ] ]).
Qed.

Lemma show_turns (channel : OutputChannel) (events : list event) (st : state) :
  In (Show channel) (log (turns events st)) <->
  In (Show channel) (log st) \/
  (outputChannel = Some channel /\
   exists ev, In ev events /\ closesNonZero ev = true).
Proof.
  revert st. induction events as [|ev events IH]; intros st.
  - simpl. split; [tauto | intros [H | (_ & ev & [] & _)]; exact H].
  - rewrite turns_cons, IH, show_turn. split.
    + intros [[H | (Hc & Hne)] | (Hc & ev' & Hin & Hne)].
      * now left.
      * right. split; [exact Hc|]. exists ev. split; [now left | exact Hne].
      * right. split; [exact Hc|]. exists ev'. split; [now right | exact Hne].
    + intros [H | (Hc & ev' & [-> | Hin] & Hne)].
      * now left; left.
      * left; right. split; [exact Hc | exact Hne].
      * right. split; [exact Hc|]. now exists ev'.
Qed.

(** An error is built, and [reject] called with it, by the ['close']
    handler alone, on a code other than zero. *)
Lemma newError_turn (ev : event) (st : state) :
  (exists message, In (Reject (NewError message)) (log (turn st ev))) <->
  (exists message, In (Reject (NewError message)) (log st)) \/
  closesNonZero ev = true.
Proof.
  destruct st as [out all p c l].
  destruct ev as [[|] data|e|code|];
    unfold cpUtils.turn, seq, handle, onClose; simpl;
    try destruct (negb (code =? 0)%Z); simpl;
    destruct outputChannel as [o|], c, p; cbn;
    (split;
     [ intros (message & H); rewrite ?in_app_iff in H; simpl in H;
       repeat match goal with
         | H : _ \/ _ |- _ => destruct H
         | H : False |- _ => destruct H
         end;
       try discriminate;
       first [ left; eexists; eassumption | right; reflexivity ]
     | intros [(message & H) | E];
       [ exists message; rewrite ?in_app_iff; tauto
       | try discriminate; eexists; rewrite ?in_app_iff; simpl;
         first [ right; left; reflexivity
               | right; right; left; reflexivity ] ] ]).
Qed.

Lemma newError_turns (events : list event) (st : state) :
  (exists message, In (Reject (NewError message)) (log (turns events st))) <->
  (exists message, In (Reject (NewError message)) (log st)) \/
  (exists ev, In ev events /\ closesNonZero ev = true).
Proof.
  revert st. induction events as [|ev events IH]; intros st.
  - simpl. split; [tauto | intros [H | (ev & [] & _)]; exact H].
  - rewrite turns_cons, IH, newError_turn. split.
    + intros [[H | Hne] | (ev' & Hin & Hne)].
      * now left.
      * right. exists ev. split; [now left | exact Hne].
      * right. exists ev'. split; [now right | exact Hne].
    + intros [H | (ev' & [-> | Hin] & Hne)].
      * now left; left.
      * now left; right.
      * right. now exists ev'.
Qed.

End Effects.

(** ** Runs with and without a channel *)



(** ** The call *)

(** The state once [cp.spawn] has returned and the handlers are
    registered, before any event. *)
Lemma executeCommand_started (outputChannel : option OutputChannel)
    (workingDirectory : option string) (command : string) (args : list string) :
  executeCommand outputChannel workingDirectory command args Spawned []
  = mkState "" "" Pending None
      (Spawn command args (mkOptions (orElse workingDirectory tmpdir) true)
       :: match outputChannel with
          | Some channel =>
              [AppendLine channel (runningLine command (join " " args))]
          | None => []
          end).
Proof. destruct outputChannel; reflexivity. Qed.

(** The state when [cp.spawn] has thrown: whatever the events. *)
Lemma executeCommand_threw (outputChannel : option OutputChannel)
    (workingDirectory : option string) (command : string) (args : list string)
    (e : HostError) (events : list event) :
  executeCommand outputChannel workingDirectory command args (SpawnThrew e) events
  = mkState "" "" (Rejected (Emitted e)) (Some (Thrown (Emitted e)))
      [Spawn command args (mkOptions (orElse workingDirectory tmpdir) true)].
Proof. reflexivity. Qed.

Lemma executeCommand_turns (outputChannel : option OutputChannel)
    (workingDirectory : option string) (command : string) (args : list string)
    (events : list event) :
  executeCommand outputChannel workingDirectory command args Spawned events
  = turns outputChannel command (join " " args) events
      (executeCommand outputChannel workingDirectory command args Spawned []).
Proof. reflexivity. Qed.

(** The state when the output has been delivered and nothing else. *)
Lemma executeCommand_output (outputChannel : option OutputChannel)
    (workingDirectory : option string) (command : string) (args : list string)
    (chunks : output) :
  executeCommand outputChannel workingDirectory command args Spawned (outputEvents chunks)
  = mkState (textOf (fromStdout chunks)) (textOf chunks) Pending None
      (log (executeCommand outputChannel workingDirectory command args Spawned [])
       ++ appends outputChannel chunks).
Proof.
  rewrite executeCommand_turns, turns_output;
    rewrite executeCommand_started; reflexivity.
Qed.

Lemma executeCommand_app (outputChannel : option OutputChannel)
    (workingDirectory : option string) (command : string) (args : list string)
    (xs ys : list event) :
  executeCommand outputChannel workingDirectory command args Spawned (xs ++ ys)%list
  = turns outputChannel command (join " " args) ys
      (executeCommand outputChannel workingDirectory command args Spawned xs).
Proof. rewrite executeCommand_turns, turns_app. reflexivity. Qed.

Lemma close_not_output (code : Z) (chunks : output) :
  ~ In (Close code) (outputEvents chunks).
Proof.
  unfold outputEvents. intros H. apply in_map_iff in H as (c & E & _).
  discriminate E.
Qed.

(** ** The properties of the specification *)

(** C1: when the process closes with exit code 0, the call returns
    exactly the concatenation of the standard-output chunks in their
    arrival order, with nothing of standard error in it, however the
    chunks of the two streams were interleaved (and whatever the channel,
    the working directory and the events that follow the close). *)
Theorem success_returns_stdout (outputChannel : option OutputChannel)
    (workingDirectory : option string) (command : string) (args : list string)
    (chunks : output) (rest : list event) :
  completed (executeCommand outputChannel workingDirectory command args Spawned
               (outputEvents chunks ++ Close 0 :: rest))
  = Some (Returned (textOf (fromStdout chunks))).
Proof.
  rewrite executeCommand_app, turns_cons. apply completed_turns.
  rewrite executeCommand_output.
  destruct outputChannel; reflexivity.
Qed.

(** C2: with no channel, when the process closes with an exit code other
    than 0, the call throws an error whose message is made of the command,
    the arguments joined by spaces, the exit code, the platform's line
    terminator and then the whole text of both streams in arrival order. *)
Theorem failure_without_channel (workingDirectory : option string)
    (command : string) (args : list string) (chunks : output) (code : Z)
    (rest : list event) :
  code <> 0%Z ->
  completed (executeCommand None workingDirectory command args Spawned
               (outputEvents chunks ++ Close code :: rest))
  = Some (Thrown (NewError
      ("Command " ++ dquote ++ command ++ " " ++ join " " args ++ dquote
       ++ " failed with exit code " ++ dquote ++ numberToString code ++ dquote
       ++ ":" ++ EOL ++ textOf chunks))).
Proof.
  intros Hcode.
  rewrite executeCommand_app, turns_cons. apply completed_turns.
  rewrite executeCommand_output.
  unfold turn, seq, handle, onClose, notZero.
  destruct (Z.eqb_spec code 0) as [E|_]; [contradiction|].
  reflexivity.
Qed.

(** C3: with a channel, when the process closes with an exit code other
    than 0, the call throws an error whose message is exactly
    [Failed to run "<command>" command. Check output window for more details.],
    and the channel is shown just before the promise is rejected: up to
    there the log holds the spawn, the running line and the appended
    chunks, and no other rejection. *)
Theorem failure_with_channel (channel : OutputChannel)
    (workingDirectory : option string) (command : string) (args : list string)
    (chunks : output) (code : Z) (rest : list event) :
  code <> 0%Z ->
  let message :=
    "Failed to run " ++ dquote ++ command ++ dquote
      ++ " command. Check output window for more details." in
  let st := executeCommand (Some channel) workingDirectory command args Spawned
              (outputEvents chunks ++ Close code :: rest) in
  completed st = Some (Thrown (NewError message)) /\
  exists later,
    log st
    = (Spawn command args (mkOptions (orElse workingDirectory tmpdir) true)
       :: AppendLine channel (runningLine command (join " " args))
       :: map (Append channel) (texts chunks)
       ++ Show channel :: Reject (NewError message) :: later)%list.
Proof.
  intros Hcode message st. subst st.
  rewrite executeCommand_app, turns_cons, executeCommand_output.
  rewrite executeCommand_started.
  set (after := turn _ _ _ _ _).
  assert (E : after
    = mkState (textOf (fromStdout chunks)) (textOf chunks)
        (Rejected (NewError message)) (Some (Thrown (NewError message)))
        (Spawn command args (mkOptions (orElse workingDirectory tmpdir) true)
         :: AppendLine channel (runningLine command (join " " args))
         :: map (Append channel) (texts chunks)
         ++ [Show channel; Reject (NewError message)])%list).
  { subst after. unfold turn, seq, handle, onClose, notZero.
    destruct (Z.eqb_spec code 0) as [E|_]; [contradiction|].
    cbn. rewrite <- !app_assoc. reflexivity. }
  rewrite E. split.
  - apply completed_turns. reflexivity.
  - destruct (log_turns (Some channel) command (join " " args) rest
                (mkState (textOf (fromStdout chunks)) (textOf chunks)
                   (Rejected (NewError message))
                   (Some (Thrown (NewError message)))
                   (Spawn command args
                      (mkOptions (orElse workingDirectory tmpdir) true)
                    :: AppendLine channel (runningLine command (join " " args))
                    :: map (Append channel) (texts chunks)
                    ++ [Show channel; Reject (NewError message)])%list))
      as (later & El & _).
    exists later. rewrite El. cbn [log].
    simpl. rewrite <- app_assoc. reflexivity.
Qed.

(** C4, as the code has it: when the process cannot be spawned, the
    call throws the error of the spawn, unchanged: the error that
    [cp.spawn] threw, or the error the child process emitted with
    ['error'] before it closed, whatever event comes after it.  An error
    with a message of its own is built, and passed to [reject], exactly
    when the process was spawned and a ['close'] with a code other than 0
    is delivered, as it is after a spawn that failed; it does not change
    what the call throws. *)
Theorem spawn_error_propagated (outputChannel : option OutputChannel)
    (workingDirectory : option string) (command : string) (args : list string) :
  (forall chunks e rest,
     completed (executeCommand outputChannel workingDirectory command args
                  Spawned (outputEvents chunks ++ Error e :: rest))
     = Some (Thrown (Emitted e))) /\
  (forall e events,
     completed (executeCommand outputChannel workingDirectory command args
                  (SpawnThrew e) events)
     = Some (Thrown (Emitted e))) /\
  (forall spawn events,
     (exists message,
        In (Reject (NewError message))
           (log (executeCommand outputChannel workingDirectory command args
                   spawn events))) <->
     spawn = Spawned /\ exists ev, In ev events /\ closesNonZero ev = true).
Proof.
  split; [|split].
  - intros chunks e rest.
    rewrite executeCommand_app, turns_cons. apply completed_turns.
    rewrite executeCommand_output. reflexivity.
  - intros e events. rewrite executeCommand_threw. reflexivity.
  - intros [|e] events.
    + rewrite executeCommand_turns, newError_turns, executeCommand_started.
      simpl. split.
      * intros [(message & [H|H]) | H]; [discriminate H | | now split].
        destruct outputChannel; simpl in H;
          [destruct H as [H|[]]; discriminate H | destruct H].
      * intros (_ & H). now right.
    + rewrite executeCommand_threw. simpl. split.
      * intros (message & [H|[]]). discriminate H.
      * intros (H & _). discriminate H.
Qed.

(** The log of a call starts with its one spawn. *)
Lemma executeCommand_log (outputChannel : option OutputChannel)
    (workingDirectory : option string) (command : string) (args : list string)
    (events : list event) :
  exists later,
    log (executeCommand outputChannel workingDirectory command args Spawned events)
    = (log (executeCommand outputChannel workingDirectory command args Spawned [])
       ++ later)%list /\
    forall c a o, ~ In (Spawn c a o) later.
Proof. rewrite executeCommand_turns. apply log_turns. Qed.

Lemma spawned_once (outputChannel : option OutputChannel)
    (workingDirectory : option string) (command : string) (args : list string)
    (spawn : spawning) (events : list event) :
  exists later,
    log (executeCommand outputChannel workingDirectory command args spawn events)
    = Spawn command args (mkOptions (orElse workingDirectory tmpdir) true)
      :: later /\
    forall c a o, ~ In (Spawn c a o) later.
Proof.
  destruct spawn as [|e].
  - destruct (executeCommand_log outputChannel workingDirectory command args events)
      as (later & E & N).
    rewrite executeCommand_started in E. simpl in E.
    eexists. split; [exact E|].
    intros c a o H. apply in_app_or in H as [H|H]; [|eapply N; eauto].
    destruct outputChannel; simpl in H;
      [destruct H as [H|[]]; discriminate H | destruct H].
  - rewrite executeCommand_threw. exists []. split; [reflexivity|].
    intros c a o [].
Qed.

(** C5: when the working directory is absent, the process is spawned,
    once, with the system temporary directory as its working directory
    (and with the shell option set); this is how [cp.spawn] is called,
    whether it returns or throws. *)
Theorem absent_working_directory (outputChannel : option OutputChannel)
    (command : string) (args : list string) (spawn : spawning)
    (events : list event) :
  exists later,
    log (executeCommand outputChannel None command args spawn events)
    = Spawn command args (mkOptions tmpdir true) :: later /\
    forall c a o, ~ In (Spawn c a o) later.
Proof. apply (spawned_once outputChannel None). Qed.

(** C6: with a channel, when the process closes with exit code 0, the
    finished line is appended to the channel, after the appended chunks
    and before the promise is resolved, and the call returns the text of
    standard output alone: it is the combined text only when standard
    error delivered no character. *)
Theorem success_with_channel (channel : OutputChannel)
    (workingDirectory : option string) (command : string) (args : list string)
    (chunks : output) (rest : list event) :
  let st := executeCommand (Some channel) workingDirectory command args Spawned
              (outputEvents chunks ++ Close 0 :: rest) in
  (exists later,
     log st
     = (Spawn command args (mkOptions (orElse workingDirectory tmpdir) true)
        :: AppendLine channel (runningLine command (join " " args))
        :: map (Append channel) (texts chunks)
        ++ AppendLine channel
             ("Finished running command: " ++ dquote ++ command ++ " "
                ++ join " " args ++ dquote ++ ".")
        :: Resolve :: later)%list) /\
  completed st = Some (Returned (textOf (fromStdout chunks))) /\
  (completed st = Some (Returned (textOf chunks)) <->
   forall data, In (Stderr, data) chunks -> toString data = "").
Proof.
  intros st.
  assert (Hc : completed st = Some (Returned (textOf (fromStdout chunks)))).
  { subst st. rewrite executeCommand_app, turns_cons. apply completed_turns.
    rewrite executeCommand_output. reflexivity. }
  split; [|split; [exact Hc|]].
  - subst st.
    rewrite executeCommand_app, turns_cons, executeCommand_output.
    rewrite executeCommand_started.
    set (after := turn _ _ _ _ _).
    destruct (log_turns (Some channel) command (join " " args) rest after)
      as (later & El & _).
    exists later. rewrite El. subst after. cbn.
    rewrite <- !app_assoc. reflexivity.
  - rewrite Hc, <- stdout_text_is_combined_iff. split.
    + now intros [= ->].
    + now intros ->.
Qed.

(** C7, as the code has it: the process is spawned first, and when
    [cp.spawn] has returned the running line is what the code does next
    when there is a channel; both come before the effects of every
    handler, and nothing is spawned afterwards.  When [cp.spawn] throws,
    the line is not appended. *)
Theorem running_line_follows_spawn (channel : OutputChannel)
    (workingDirectory : option string) (command : string) (args : list string)
    (events : list event) :
  let spawn :=
    Spawn command args (mkOptions (orElse workingDirectory tmpdir) true) in
  let line :=
    AppendLine channel
      ("Running command: " ++ dquote ++ command ++ " " ++ join " " args
         ++ dquote ++ "...") in
  log (executeCommand (Some channel) workingDirectory command args Spawned [])
  = [spawn; line] /\
  (exists later,
     log (executeCommand (Some channel) workingDirectory command args Spawned
            events)
     = spawn :: line :: later /\
     forall c a o, ~ In (Spawn c a o) later) /\
  (forall e,
     log (executeCommand (Some channel) workingDirectory command args
            (SpawnThrew e) events)
     = [spawn]).
Proof.
  intros spawn line. split; [reflexivity|]. split.
  - destruct (executeCommand_log (Some channel) workingDirectory command args events)
      as (later & E & N).
    exists later. split; [exact E | exact N].
  - intros e. rewrite executeCommand_threw. reflexivity.
Qed.


(** C9: the empty string as working directory is taken as an absent one:
    the whole run is the same, and the process is spawned with the system
    temporary directory as its working directory. *)
Theorem empty_working_directory (outputChannel : option OutputChannel)
    (command : string) (args : list string) (spawn : spawning)
    (events : list event) :
  executeCommand outputChannel (Some "") command args spawn events
  = executeCommand outputChannel None command args spawn events /\
  exists later,
    log (executeCommand outputChannel (Some "") command args spawn events)
    = Spawn command args (mkOptions tmpdir true) :: later /\
    forall c a o, ~ In (Spawn c a o) later.
Proof.
  split; [reflexivity|].
  apply (spawned_once outputChannel (Some "")).
Qed.

(** C10, as the code has it: the channel is shown exactly when there
    is a channel, the process was spawned and the ['close'] handler runs
    with a code other than 0 (an exit code, or [null]).  It is not shown
    in a run that closes with exit code 0, nor when [cp.spawn] throws;
    after ['error'] it is shown exactly when a ['close'] with a code other
    than 0 follows, as it does after a spawn that failed. *)
Theorem show_only_on_failure (outputChannel : option OutputChannel)
    (workingDirectory : option string) (command : string) (args : list string)
    (channel : OutputChannel) :
  (forall spawn events,
     In (Show channel)
        (log (executeCommand outputChannel workingDirectory command args
                spawn events))
     <-> outputChannel = Some channel /\ spawn = Spawned /\
         exists ev, In ev events /\ closesNonZero ev = true) /\
  (forall chunks,
     ~ In (Show channel)
          (log (executeCommand outputChannel workingDirectory command args
                  Spawned (outputEvents chunks ++ [Close 0])))) /\
  (forall e events,
     ~ In (Show channel)
          (log (executeCommand outputChannel workingDirectory command args
                  (SpawnThrew e) events))) /\
  (forall chunks e rest,
     In (Show channel)
        (log (executeCommand outputChannel workingDirectory command args
                Spawned (outputEvents chunks ++ Error e :: rest)))
     <-> outputChannel = Some channel /\
         exists ev, In ev rest /\ closesNonZero ev = true).
Proof.
  assert (Hiff : forall spawn events,
     In (Show channel)
        (log (executeCommand outputChannel workingDirectory command args
                spawn events))
     <-> outputChannel = Some channel /\ spawn = Spawned /\
         exists ev, In ev events /\ closesNonZero ev = true).
  { intros [|e] events.
    - rewrite executeCommand_turns, show_turns.
      rewrite executeCommand_started. simpl. split.
      + intros [[H|H]|(Hc & H)]; [discriminate H | | now repeat split].
        destruct outputChannel; simpl in H;
          [destruct H as [H|[]]; discriminate H | destruct H].
      + intros (Hc & _ & H). right. now split.
    - rewrite executeCommand_threw. simpl. split.
      + intros [H|[]]. discriminate H.
      + intros (_ & H & _). discriminate H. }
  assert (Hdata : forall chunks ev,
    In ev (outputEvents chunks) -> closesNonZero ev = false).
  { intros chunks ev H. unfold outputEvents in H.
    apply in_map_iff in H as (c & <- & _). reflexivity. }
  split; [exact Hiff|]. split; [|split].
  - intros chunks H. apply Hiff in H as (_ & _ & ev & Hin & Hne).
    apply in_app_or in Hin as [Hin|[<-|[]]].
    + rewrite (Hdata _ _ Hin) in Hne. discriminate Hne.
    + discriminate Hne.
  - intros e events H. apply Hiff in H as (_ & H & _). discriminate H.
  - intros chunks e rest. rewrite Hiff. split.
    + intros (Hc & _ & ev & Hin & Hne). split; [exact Hc|].
      apply in_app_or in Hin as [Hin|[<-|Hin]].
      * rewrite (Hdata _ _ Hin) in Hne. discriminate Hne.
      * discriminate Hne.
      * now exists ev.
    + intros (Hc & ev & Hin & Hne). repeat split; [exact Hc|].
      exists ev. split; [|exact Hne].
      apply in_or_app. right. now right.
Qed.

(** ** Further properties of the call *)

Section Accumulators.

Variable outputChannel : option OutputChannel.
Variables command formattedArgs : string.

Local Abbreviation turn := (turn outputChannel command formattedArgs).
Local Abbreviation turns := (turns outputChannel command formattedArgs).

Lemma combined_turn (ev : event) (st : state) :
  cmdOutputIncludingStderr (turn st ev)
  = cmdOutputIncludingStderr st ++ textOf (outputOf [ev]).
Proof.
  destruct st as [out all p c l].
  destruct ev as [[|] data|e|code|];
    unfold cpUtils.turn, seq, handle, onClose, textOf; simpl;
    rewrite ?append_nil_r.
  - destruct outputChannel, c, p; reflexivity.
  - destruct outputChannel, c, p; reflexivity.
  - destruct c, p; reflexivity.
  - destruct (negb (code =? 0)%Z), outputChannel, c, p; reflexivity.
  - destruct outputChannel, c, p; reflexivity.
Qed.

Lemma combined_turns (events : list event) (st : state) :
  cmdOutputIncludingStderr (turns events st)
  = cmdOutputIncludingStderr st ++ textOf (outputOf events).
Proof.
  revert st. induction events as [|ev events IH]; intros st.
  - simpl. now rewrite append_nil_r.
  - rewrite turns_cons, IH, combined_turn, append_assoc. f_equal.
    change (ev :: events) with ([ev] ++ events)%list.
    now rewrite outputOf_app, textOf_app.
Qed.

(** A turn leaves the promise pending exactly when it was pending and
    the event is a chunk; and the call has completed after the turn
    exactly when the promise is settled. *)
Lemma pending_turn (ev : event) (st : state) :
  quiescent st ->
  quiescent (turn st ev) /\
  (promise (turn st ev) = Pending <-> promise st = Pending /\ isData ev = true).
Proof.
  destruct st as [out all p c l]. unfold quiescent; simpl. intros Q.
  destruct ev as [[|] data|e|code|];
    unfold cpUtils.turn, seq, handle, onClose; simpl;
    try destruct (negb (code =? 0)%Z);
    destruct outputChannel, c, p; cbn;
    repeat split; intros; try tauto; try discriminate;
    try (destruct Q; discriminate);
    try (destruct Q as [Q1 Q2]; try (specialize (Q1 eq_refl)); try (specialize (Q2 eq_refl)); discriminate);
    intuition discriminate.
Qed.

Lemma pending_turns (events : list event) (st : state) :
  quiescent st ->
  quiescent (turns events st) /\
  (promise (turns events st) = Pending <->
   promise st = Pending /\ forallb isData events = true).
Proof.
  revert st. induction events as [|ev events IH]; intros st Q.
  - simpl. split; [exact Q | tauto].
  - rewrite turns_cons.
    destruct (pending_turn ev st Q) as (Q' & P').
    destruct (IH _ Q') as (Q'' & P''). split; [exact Q''|].
    rewrite P'', P'. simpl. rewrite andb_true_iff. tauto.
Qed.

(** Chunks are appended to the channel, in order, whatever the state of
    the promise; nothing else is. *)
Lemma appendedOf_app (xs ys : list effect) :
  appendedOf (xs ++ ys)%list = (appendedOf xs ++ appendedOf ys)%list.
Proof. unfold appendedOf. apply flat_map_app. Qed.

Lemma appendedOf_turn (channel : OutputChannel) (ev : event) (st : state) :
  outputChannel = Some channel ->
  appendedOf (log (turn st ev))
  = (appendedOf (log st) ++ map (pair channel) (texts (outputOf [ev])))%list.
Proof.
  intros ->. destruct st as [out all p c l].
  destruct ev as [[|] data|e|code|];
    unfold cpUtils.turn, seq, handle, onClose; simpl;
    try destruct (negb (code =? 0)%Z);
    destruct c, p; unfold appendedOf; cbn;
    rewrite ?flat_map_app; simpl; rewrite ?app_nil_r; reflexivity.
Qed.

Lemma appendedOf_turns (channel : OutputChannel) (events : list event)
    (st : state) :
  outputChannel = Some channel ->
  appendedOf (log (turns events st))
  = (appendedOf (log st) ++ map (pair channel) (texts (outputOf events)))%list.
Proof.
  intros Hc. revert st. induction events as [|ev events IH]; intros st.
  - simpl. now rewrite app_nil_r.
  - rewrite turns_cons, IH, (appendedOf_turn channel ev st Hc), <- app_assoc.
    f_equal. change (ev :: events) with ([ev] ++ events)%list.
    rewrite outputOf_app. unfold texts. now rewrite !map_app.
Qed.

(** No handler calls a channel other than the one it closes over. *)
Lemma channelOf_turn (ev : event) (st : state) :
  Forall (fun e => forall c, channelOf e = Some c -> outputChannel = Some c)
         (log st) ->
  Forall (fun e => forall c, channelOf e = Some c -> outputChannel = Some c)
         (log (turn st ev)).
Proof.
  destruct st as [out all p c l]; simpl. intros H.
  destruct ev as [[|] data|e|code|];
    unfold cpUtils.turn, seq, handle, onClose; simpl;
    try destruct (negb (code =? 0)%Z);
    destruct outputChannel, c, p; cbn;
    repeat (apply Forall_app; split); try exact H;
    repeat constructor; simpl; intros; congruence.
Qed.

Lemma channelOf_turns (events : list event) (st : state) :
  Forall (fun e => forall c, channelOf e = Some c -> outputChannel = Some c)
         (log st) ->
  Forall (fun e => forall c, channelOf e = Some c -> outputChannel = Some c)
         (log (turns events st)).
Proof.
  revert st. induction events as [|ev events IH]; intros st H; [exact H|].
  rewrite turns_cons. apply IH, channelOf_turn, H.
Qed.

End Accumulators.

(** X1: whatever the channel and the events, the combined accumulator
    holds the text of every chunk of both streams, in arrival order. *)
Theorem combined_output_collected (outputChannel : option OutputChannel)
    (workingDirectory : option string) (command : string) (args : list string)
    (events : list event) :
  cmdOutputIncludingStderr
    (executeCommand outputChannel workingDirectory command args Spawned events)
  = textOf (outputOf events).
Proof.
  rewrite executeCommand_turns, combined_turns, executeCommand_started.
  reflexivity.
Qed.

(** X2: the call has not completed, and its promise is pending, exactly
    when [cp.spawn] has returned and every event delivered so far is a
    chunk: a throw of [cp.spawn], ['close'] and ['error'] end the call,
    each of them does, and nothing else does. *)
Theorem pending_until_close_or_error (outputChannel : option OutputChannel)
    (workingDirectory : option string) (command : string) (args : list string)
    (spawn : spawning) (events : list event) :
  let st :=
    executeCommand outputChannel workingDirectory command args spawn events in
  (completed st = None <-> spawn = Spawned /\ forallb isData events = true) /\
  (promise st = Pending <-> spawn = Spawned /\ forallb isData events = true).
Proof.
  intros st. subst st. destruct spawn as [|e].
  - rewrite executeCommand_turns.
    set (st0 := executeCommand outputChannel workingDirectory command args
                  Spawned []).
    assert (P0 : promise st0 = Pending).
    { subst st0. rewrite executeCommand_started. reflexivity. }
    assert (Q0 : quiescent st0).
    { subst st0. rewrite executeCommand_started. unfold quiescent; simpl. tauto. }
    destruct (pending_turns outputChannel command (join " " args) events st0 Q0)
      as (Q & P).
    unfold quiescent in Q. split; split; intros H.
    + apply Q, P in H. tauto.
    + apply Q, P. split; [assumption | tauto].
    + apply P in H. tauto.
    + apply P. split; [assumption | tauto].
  - rewrite executeCommand_threw. simpl.
    split; split; intros H; try discriminate H; destruct H as [H _];
      discriminate H.
Qed.

(** X3: with a channel, [append] is called with the text of every chunk
    of both streams, in arrival order and on that channel, also for the
    chunks that arrive once the promise is settled; and with nothing else. *)
Theorem channel_receives_every_chunk (channel : OutputChannel)
    (workingDirectory : option string) (command : string) (args : list string)
    (events : list event) :
  appendedOf
    (log (executeCommand (Some channel) workingDirectory command args Spawned events))
  = map (pair channel) (texts (outputOf events)).
Proof.
  rewrite executeCommand_turns, (appendedOf_turns _ _ _ channel) by reflexivity.
  reflexivity.
Qed.

(** X4: every call made on a channel is made on the channel that was
    passed: with no channel, nothing is appended or shown anywhere. *)
Theorem only_the_given_channel (outputChannel : option OutputChannel)
    (workingDirectory : option string) (command : string) (args : list string)
    (spawn : spawning) (events : list event) :
  Forall (fun e => forall c, channelOf e = Some c -> outputChannel = Some c)
         (log (executeCommand outputChannel workingDirectory command args
                 spawn events)).
Proof.
  destruct spawn as [|e].
  - rewrite executeCommand_turns. apply channelOf_turns.
    rewrite executeCommand_started.
    destruct outputChannel; repeat constructor; simpl; intros; congruence.
  - rewrite executeCommand_threw. repeat constructor. simpl. intros; congruence.
Qed.

(** X5: a working directory that is not the empty string is the one the
    process is spawned in; the arguments are handed over one by one, as
    they were passed, and the shell option is set. *)
Theorem given_working_directory_used (outputChannel : option OutputChannel)
    (directory command : string) (args : list string) (spawn : spawning)
    (events : list event) :
  directory <> "" ->
  exists later,
    log (executeCommand outputChannel (Some directory) command args spawn events)
    = Spawn command args (mkOptions directory true) :: later /\
    forall c a o, ~ In (Spawn c a o) later.
Proof.
  intros Hd.
  destruct (spawned_once outputChannel (Some directory) command args spawn events)
    as (later & E & N).
  exists later. split; [|exact N].
  rewrite E. destruct directory; [contradiction | reflexivity].
Qed.

(** X6: the call completes once: what it returned or threw after some
    events is what it has returned or thrown after any more events. *)
Theorem completion_is_final (outputChannel : option OutputChannel)
    (workingDirectory : option string) (command : string) (args : list string)
    (spawn : spawning) (events more : list event) (c : completion) :
  completed (executeCommand outputChannel workingDirectory command args spawn
               events)
  = Some c ->
  completed (executeCommand outputChannel workingDirectory command args spawn
               (events ++ more))
  = Some c.
Proof.
  destruct spawn as [|e]; intros H.
  - rewrite executeCommand_app. apply completed_turns, H.
  - rewrite executeCommand_threw in *. exact H.
Qed.

(** X7: when ['close'] with an exit code other than 0 follows ['error'],
    with a channel, the channel is shown and [reject] is called a second
    time, with the generic error; the call has thrown the emitted error
    all the same. *)
Theorem close_after_error (channel : OutputChannel)
    (workingDirectory : option string) (command : string) (args : list string)
    (chunks : output) (e : HostError) (code : Z) :
  code <> 0%Z ->
  let st := executeCommand (Some channel) workingDirectory command args Spawned
              (outputEvents chunks ++ [Error e; Close code]) in
  completed st = Some (Thrown (Emitted e)) /\
  log st
  = (Spawn command args (mkOptions (orElse workingDirectory tmpdir) true)
     :: AppendLine channel (runningLine command (join " " args))
     :: map (Append channel) (texts chunks)
     ++ [Reject (Emitted e); Show channel;
         Reject (NewError (genericMessage command))])%list.
Proof.
  intros Hcode st. subst st.
  rewrite executeCommand_app, executeCommand_output, executeCommand_started.
  unfold turns. simpl fold_left.
  unfold turn at 2. unfold seq, handle, onError. cbn.
  unfold turn, seq, handle, onClose, notZero.
  destruct (Z.eqb_spec code 0) as [E|_]; [contradiction|].
  cbn. rewrite <- !app_assoc. split; reflexivity.
Qed.

End Properties.

(** ** The properties on the example host *)

(** The scenario of the specification: [echo hello] with no channel
    returns what the process wrote on standard output. *)
Example echo_hello :
  completed (executeCommand (host := exampleHost) None None "echo" ["hello"] Spawned
               [Data Stdout (Str ("hello" ++ newline)); Close 0])
  = Some (Returned ("hello" ++ newline)).
Proof. reflexivity. Qed.

(** A process that writes [boom] on standard error and exits with code
    2, with no channel. *)
Lemma failure_without_channel_witness :
  (2 <> 0)%Z /\
  completed (executeCommand (host := exampleHost) None None "sh" ["-c"; "exit 2"] Spawned
               (outputEvents [(Stderr, Str "boom")] ++ [Close 2]))
  = Some (Thrown (NewError
      ("Command " ++ dquote ++ "sh -c exit 2" ++ dquote
       ++ " failed with exit code " ++ dquote ++ "2" ++ dquote ++ ":"
       ++ newline ++ "boom"))).
Proof.
  split; [lia|].
  apply (failure_without_channel (host := exampleHost) None "sh" ["-c"; "exit 2"]
           [(Stderr, Str "boom")] 2 []).
  lia.
Defined.

(** The same process, with a channel. *)
Lemma failure_with_channel_witness :
  (2 <> 0)%Z /\
  let message :=
    "Failed to run " ++ dquote ++ "sh" ++ dquote
      ++ " command. Check output window for more details." in
  let st := executeCommand (host := exampleHost) (Some "Output") None
              "sh" ["-c"; "exit 2"] Spawned
              (outputEvents [(Stderr, Str "boom")] ++ [Close 2]) in
  completed st = Some (Thrown (NewError message)) /\
  exists later,
    log st
    = (Spawn "sh" ["-c"; "exit 2"] (mkOptions "/tmp" true)
       :: AppendLine (host := exampleHost) "Output" (runningLine "sh" "-c exit 2")
       :: map (Append (host := exampleHost) "Output") ["boom"]
       ++ Show (host := exampleHost) "Output"
       :: Reject (NewError message) :: later)%list.
Proof.
  split; [lia|].
  apply (failure_with_channel (host := exampleHost) "Output" None "sh"
           ["-c"; "exit 2"] [(Stderr, Str "boom")] 2 []).
  lia.
Defined.

(** C7, as the specification has it, fails on [echo hello] with a
    channel: the running line is not appended before the process is
    spawned, the process is spawned before the line is appended. *)
Lemma running_line_not_before_spawn :
  let run := executeCommand (host := exampleHost) (Some "Output") None
               "echo" ["hello"] Spawned [Data Stdout (Str "hello"); Close 0] in
  let spawn :=
    Spawn (host := exampleHost) "echo" ["hello"] (mkOptions "/tmp" true) in
  let line :=
    AppendLine (host := exampleHost) "Output" (runningLine "echo" "hello") in
  ~ precedes line spawn (log run) /\ precedes spawn line (log run).
Proof.
  intros run spawn line. split.
  - intros (before & after & E & Hin).
    destruct before as [|first before]; [destruct Hin|].
    injection E as E1 E2. subst first.
    destruct Hin as [H|Hin]; [discriminate H|].
    assert (Hs : In spawn (before ++ spawn :: after)) by apply in_elt.
    rewrite <- E2 in Hs. simpl in Hs.
    repeat (destruct Hs as [Hs|Hs]; [discriminate Hs|]). exact Hs.
  - exists [spawn], (List.tl (List.tl (log run))). split; [reflexivity | now left].
Qed.

(** A working directory that is passed. *)
Lemma given_working_directory_used_witness :
  "/home" <> "" /\
  exists later,
    log (executeCommand (host := exampleHost) None (Some "/home") "ls" ["-l"] Spawned
           [Close 0])
    = Spawn "ls" ["-l"] (mkOptions "/home" true) :: later /\
    forall c a o, ~ In (Spawn c a o) later.
Proof.
  split; [discriminate|].
  apply (given_working_directory_used (host := exampleHost) None "/home" "ls"
           ["-l"] Spawned [Close 0]).
  discriminate.
Defined.

(** A second ['close'] after the call has returned. *)
Lemma completion_is_final_witness :
  completed (executeCommand (host := exampleHost) None None "echo" ["hello"] Spawned
               ([Data Stdout (Str "hello"); Close 0] ++ [Close 2]))
  = Some (Returned "hello").
Proof.
  apply (completion_is_final (host := exampleHost) None None "echo" ["hello"]
           Spawned [Data Stdout (Str "hello"); Close 0] [Close 2]).
  reflexivity.
Defined.

(** A process that could not be spawned, closing with a negative code. *)
Lemma close_after_error_witness :
  (-2 <> 0)%Z /\
  completed (executeCommand (host := exampleHost) (Some "Output") None
               "mongo" [] Spawned
               (outputEvents []
                ++ [Error (host := exampleHost) "ENOENT"; Close (-2)]))
  = Some (Thrown (Emitted (host := exampleHost) "ENOENT")).
Proof.
  split; [lia|].
  apply (close_after_error (host := exampleHost) "Output" None "mongo" []
           [] "ENOENT" (-2)).
  lia.
Defined.

(** C4, as the specification has it, fails on a process that cannot be
    spawned and closes with code -2, with no channel: the call throws the
    emitted error, and the ['close'] handler has built an error from the
    exit code and called [reject] with it. *)
Lemma exit_code_message_after_spawn_error :
  let st := executeCommand (host := exampleHost) None None "mongo" [] Spawned
              [Error (host := exampleHost) "ENOENT"; Close (-2)] in
  completed st = Some (Thrown (Emitted (host := exampleHost) "ENOENT")) /\
  In (Reject (NewError
        ("Command " ++ dquote ++ "mongo " ++ dquote ++ " failed with exit code "
           ++ dquote ++ "-2" ++ dquote ++ ":" ++ newline)))
     (log st) /\
  ~ (forall message, ~ In (Reject (NewError message)) (log st)).
Proof.
  intros st. split; [reflexivity|]. split.
  - right. right. left. reflexivity.
  - intros H. apply (H _ (or_intror (or_intror (or_introl eq_refl)))).
Qed.

(** C10, as the specification has it, fails on the same process with a
    channel: the call throws the error of the spawn, and the channel is
    shown. *)
Lemma channel_shown_after_spawn_error :
  let st := executeCommand (host := exampleHost) (Some "Output") None "mongo" []
              Spawned [Error (host := exampleHost) "ENOENT"; Close (-2)] in
  completed st = Some (Thrown (Emitted (host := exampleHost) "ENOENT")) /\
  In (Show (host := exampleHost) "Output") (log st).
Proof.
  intros st. split; [reflexivity|].
  right. right. right. left. reflexivity.
Qed.

End cpUtils.

(** * The Mongo commands (registerMongoCommands)

    The callbacks that [registerMongoCommands] registers, and the callback
    of [loadPersistedMongoDB].  Each is a program over the calls it makes
    on its host: the tree of nodes, the language client, the editor's
    commands and global state.  The host answers every call, with a value
    or with an error; a program is run against any such behaviour.  A
    callback is run on its own: nothing else writes [ext.connectedMongoDB]
    while it waits for the host. *)

Module mongoCommands.

(** [const connectedDBKey] *)
Definition connectedDBKey : string := "ms-azuretools.vscode-cosmosdb.connectedDB".

(** What the callbacks use of their host, and do not define. *)
Class Host := {
  (** [IAzureNode] and [IAzureParentNode], with [node.id], [node.parent],
      [node.treeItem.connectionString] and [node.treeItem.databaseName]. *)
  Node : Type;
  id : Node -> string;
  parent : Node -> option Node;
  connectionString : Node -> string;
  databaseName : Node -> string;
  (** [vscode.Terminal] *)
  Terminal : Type;
  (** What a call of the host throws, or rejects its promise with. *)
  HostError : Type;
  (** The [contextValue] of the four kinds of tree items. *)
  accountContextValue : string;
  databaseContextValue : string;
  collectionContextValue : string;
  documentContextValue : string
}.

Section Program.

Context {host : Host}.

(** The calls on the host. *)
Inductive call :=
| ShowNodePicker (contextValue : string)
| CreateChild (node : Node)
| ExecuteCommand (command : string) (argument : option Node)
| Connect (connectionString databaseName : string)
| GlobalStateUpdate (key : string) (value : option string)
| GlobalStateGet (key : string)
| Refresh (node : Node)
| FindNode (id : string)
| DeleteNode (node : Node)
| Disconnect
| ShowDocument (node : Node) (fileName : string)
| OnReady
| SetSuppressErrorDisplay (value : bool)
| SetProperty (name value : string)
| CreateTerminal (name : string)
| SendText (terminal : Terminal) (text : string)
| ShowTerminal (terminal : Terminal).

(** What a call answers with, when it does not fail. *)
Definition answer (c : call) : Type :=
  match c with
  | ShowNodePicker _ | CreateChild _ => Node
  | FindNode _ => option Node
  | GlobalStateGet _ => option string
  | CreateTerminal _ => Terminal
  | _ => unit
  end.

Inductive result (A : Type) :=
| Ok (a : A)
| Failed (e : HostError).

Arguments Ok {A} a.
Arguments Failed {A} e.

(** A callback: it returns, throws, calls the host and goes on with the
    answer, or reads or writes [ext.connectedMongoDB]. *)
Inductive prog (A : Type) : Type :=
| Ret (a : A)
| Throw (e : HostError)
| Call (c : call) (k : result (answer c) -> prog A)
| ReadConnected (k : option Node -> prog A)
| WriteConnected (value : option Node) (k : prog A).

Arguments Ret {A} a.
Arguments Throw {A} e.
Arguments Call {A} c k.
Arguments ReadConnected {A} k.
Arguments WriteConnected {A} value k.

Fixpoint bind {A B : Type} (p : prog A) (f : A -> prog B) : prog B :=
  match p with
  | Ret a => f a
  | Throw e => Throw e
  | Call c k => Call c (fun r => bind (k r) f)
  | ReadConnected k => ReadConnected (fun v => bind (k v) f)
  | WriteConnected v k => WriteConnected v (bind k f)
  end.

Notation "x <- p ;; q" := (bind p (fun x => q))
  (at level 61, p at next level, right associativity).
Notation "p ;; q" := (bind p (fun _ => q))
  (at level 61, right associativity).

(** A call whose answer the code waits for, or uses: its failure is
    thrown. *)
Definition perform (c : call) : prog (answer c) :=
  Call c (fun r => match r with Ok a => Ret a | Failed e => Throw e end).

(** A call whose promise the code drops, or an assignment to a property
    of a host object. *)
Definition fire (c : call) : prog unit := Call c (fun _ => Ret tt).

(** [ext.connectedMongoDB] *)
Definition readConnected : prog (option Node) := ReadConnected (fun v => Ret v).

(** [ext.connectedMongoDB = value] *)
Definition writeConnected (value : option Node) : prog unit :=
  WriteConnected value (Ret tt).

(** [if (!node) { node = await tree.showNodePicker(contextValue); }] *)
Definition orPick (node : option Node) (contextValue : string) : prog Node :=
  match node with
  | Some n => Ret n
  | None => perform (ShowNodePicker contextValue)
  end.

(** ['cosmosDB.createMongoDatabase'] *)
Definition createMongoDatabase (node : option Node) : prog unit :=
  node <- orPick node accountContextValue ;;
  childNode <- perform (CreateChild node) ;;
  perform (ExecuteCommand "cosmosDB.connectMongoDB" (Some childNode)).

(** ['cosmosDB.createMongoCollection'] *)
Definition createMongoCollection (node : option Node) : prog unit :=
  node <- orPick node databaseContextValue ;;
  childNode <- perform (CreateChild node) ;;
  perform (ExecuteCommand "cosmosDB.connectMongoDB" (parent childNode)).

(** ['cosmosDB.createMongoDocument'] *)
Definition createMongoDocument (node : option Node) : prog unit :=
  node <- orPick node collectionContextValue ;;
  _ <- perform (CreateChild node) ;;
  Ret tt.

(** ['cosmosDB.connectMongoDB'] *)
Definition connectMongoDB (node : option Node) : prog unit :=
  node <- orPick node databaseContextValue ;;
  connected <- readConnected ;;
  let oldNodeId := option_map id connected in
  perform (Connect (connectionString node) (databaseName node)) ;;
  fire (GlobalStateUpdate connectedDBKey (Some (id node))) ;;
  writeConnected (Some node) ;;
  perform (Refresh node) ;;
  match oldNodeId with
  | Some i =>
      if cpUtils.truthy i then
        oldNode <- perform (FindNode i) ;;
        match oldNode with
        | Some n => perform (Refresh n)
        | None => Ret tt
        end
      else Ret tt
  | None => Ret tt
  end.

(** ['cosmosDB.deleteMongoDB'] *)
Definition deleteMongoDB (node : option Node) : prog unit :=
  node <- orPick node databaseContextValue ;;
  perform (DeleteNode node) ;;
  connected <- readConnected ;;
  match connected with
  | Some c =>
      if (id c =? id node)%string then
        writeConnected None ;;
        fire (GlobalStateUpdate connectedDBKey None) ;;
        fire Disconnect
      else Ret tt
  | None => Ret tt
  end.

(** ['cosmosDB.deleteMongoCollection'] *)
Definition deleteMongoCollection (node : option Node) : prog unit :=
  node <- orPick node collectionContextValue ;;
  perform (DeleteNode node).

(** ['cosmosDB.deleteMongoDocument'] *)
Definition deleteMongoDocument (node : option Node) : prog unit :=
  node <- orPick node documentContextValue ;;
  perform (DeleteNode node).

(** ['cosmosDB.openCollection']: [ShowDocument node fileName] is
    [editorManager.showDocument(new MongoCollectionNodeEditor(node), fileName)]. *)
Definition openCollection (node : option Node) : prog unit :=
  node <- orPick node collectionContextValue ;;
  perform (ShowDocument node "cosmos-collection.json").

(** The callback of [loadPersistedMongoDB]. *)
Definition loadPersistedMongoDB : prog unit :=
  fire (SetSuppressErrorDisplay true) ;;
  fire (SetProperty "isActivationEvent" "true") ;;
  persistedNodeId <- perform (GlobalStateGet connectedDBKey) ;;
  match persistedNodeId with
  | Some i =>
      if cpUtils.truthy i then
        persistedNode <- perform (FindNode i) ;;
        match persistedNode with
        | Some n =>
            perform OnReady ;;
            perform (ExecuteCommand "cosmosDB.connectMongoDB" (Some n))
        | None => Ret tt
        end
      else Ret tt
  | None => Ret tt
  end.

(** [launchMongoShell] *)
Definition launchMongoShell : prog unit :=
  terminal <- perform (CreateTerminal "Mongo Shell") ;;
  perform (SendText terminal "mongo") ;;
  perform (ShowTerminal terminal).

(** The callbacks that take an optional node, each with the context
    value its picker is shown with. *)
Definition nodeCommands : list ((option Node -> prog unit) * string) :=
  [ (createMongoDatabase, accountContextValue);
    (createMongoCollection, databaseContextValue);
    (createMongoDocument, collectionContextValue);
    (connectMongoDB, databaseContextValue);
    (deleteMongoDB, databaseContextValue);
    (deleteMongoCollection, collectionContextValue);
    (deleteMongoDocument, documentContextValue);
    (openCollection, collectionContextValue) ].

(** ** Running a callback *)

(** [ext.connectedMongoDB], and the calls made on the host so far. *)
Record world := mkWorld {
  connectedMongoDB : option Node;
  calls : list call
}.

(** A host: its answer to a call, given the calls made before. *)
Definition behaviour := list call -> forall c : call, result (answer c).

Inductive outcome (A : Type) :=
| Returned (a : A)
| Thrown (e : HostError).

Arguments Returned {A} a.
Arguments Thrown {A} e.

(** A run follows the callback itself.  What the host does while it
    answers a call is not part of it: the command that [ExecuteCommand]
    names is run by the editor, and [connectedMongoDB] is
    [ext.connectedMongoDB] as the callback itself reads and writes it. *)
Fixpoint run {A : Type} (h : behaviour) (p : prog A) (w : world)
    : outcome A * world :=
  match p with
  | Ret a => (Returned a, w)
  | Throw e => (Thrown e, w)
  | Call c k =>
      run h (k (h (calls w) c)) (mkWorld (connectedMongoDB w) (calls w ++ [c]))
  | ReadConnected k => run h (k (connectedMongoDB w)) w
  | WriteConnected v k => run h k (mkWorld v (calls w))
  end.

(** The calls a run adds to those made before. *)
Definition made {A : Type} (h : behaviour) (p : prog A) (w : world) : list call :=
  skipn (List.length (calls w)) (calls (snd (run h p w))).

(** ** Vocabulary *)

(** The value the global state holds under [connectedDBKey] after some
    calls, when it held [initial] before: the value of the last update. *)
Fixpoint persisted (initial : option string) (l : list call) : option string :=
  match l with
  | [] => initial
  | GlobalStateUpdate key value :: rest =>
      if (key =? connectedDBKey)%string then persisted value rest
      else persisted initial rest
  | _ :: rest => persisted initial rest
  end.

(** The persisted id is the id of the connected node, and there is none
    when no node is connected. *)
Definition inSync (initial : option string) (w : world) : Prop :=
  persisted initial (calls w) = option_map id (connectedMongoDB w).

Definition isPicker (c : call) : bool :=
  match c with
  | ShowNodePicker _ => true
  | _ => false
  end.

End Program.

Arguments Ok {host A} a.
Arguments Failed {host A} e.
Arguments Ret {host A} a.
Arguments Throw {host A} e.
Arguments Returned {host A} a.
Arguments Thrown {host A} e.

(** ** A host to run examples on

    A node is its id; it holds the database of the same name, on a fixed
    server, and its parent is the path above it. *)
Definition exampleHost : Host := {|
  Node := string;
  id := fun n => n;
  parent := fun n => Some ("parent of " ++ n);
  connectionString := fun n => "mongodb://localhost";
  databaseName := fun n => n;
  Terminal := string;
  HostError := string;
  accountContextValue := "cosmosDBMongoServer";
  databaseContextValue := "mongoDb";
  collectionContextValue := "MongoCollection";
  documentContextValue := "MongoDocument"
|}.

(** A host where every call succeeds: the picker answers with a node
    called [picked], and the tree finds every node. *)
Definition obliging : @behaviour exampleHost := fun _ c =>
  match c return @result exampleHost (@answer exampleHost c) with
  | ShowNodePicker _ => Ok "picked"
  | CreateChild n => Ok (n ++ "/child")
  | FindNode i => Ok (Some i)
  | GlobalStateGet _ => Ok None
  | CreateTerminal name => Ok name
  | _ => Ok tt
  end.

(** A host where the language client cannot connect. *)
Definition unreachable : @behaviour exampleHost := fun l c =>
  match c return @result exampleHost (@answer exampleHost c) with
  | Connect _ _ => Failed (host := exampleHost) "ECONNREFUSED"
  | c' => obliging l c'
  end.

(** A host where no node can be refreshed. *)
Definition stale : @behaviour exampleHost := fun l c =>
  match c return @result exampleHost (@answer exampleHost c) with
  | Refresh _ => Failed (host := exampleHost) "refresh failed"
  | c' => obliging l c'
  end.

(** A host where every picker is dismissed. *)
Definition dismissive : @behaviour exampleHost := fun l c =>
  match c return @result exampleHost (@answer exampleHost c) with
  | ShowNodePicker _ => Failed (host := exampleHost) "cancelled"
  | c' => obliging l c'
  end.

(** ** Runs *)

Section Properties.

Context {host : Host}.

(** A run only adds calls to those made before. *)
Lemma run_calls {A : Type} (h : behaviour) (p : prog A) (w : world) :
  exists later, calls (snd (run h p w)) = (calls w ++ later)%list.
Proof.
  revert w. induction p as [a|e|c k IH|k IH|v k IH]; intros w; simpl.
  - exists []. now rewrite app_nil_r.
  - exists []. now rewrite app_nil_r.
  - destruct (IH (h (calls w) c) (mkWorld (connectedMongoDB w) (calls w ++ [c])))
      as (later & E).
    exists (c :: later). rewrite E. simpl. now rewrite <- app_assoc.
  - apply IH.
  - destruct (IH (mkWorld v (calls w))) as (later & E).
    exists later. exact E.
Qed.

Lemma made_unique {A : Type} (h : behaviour) (p : prog A) (w : world)
    (later : list call) :
  calls (snd (run h p w)) = (calls w ++ later)%list -> made h p w = later.
Proof.
  intros E. unfold made. rewrite E, skipn_app, skipn_all, Nat.sub_diag.
  reflexivity.
Qed.

Lemma calls_made {A : Type} (h : behaviour) (p : prog A) (w : world) :
  calls (snd (run h p w)) = (calls w ++ made h p w)%list.
Proof.
  destruct (run_calls h p w) as (later & E).
  now rewrite (made_unique h p w later E).
Qed.

Lemma persisted_app (initial : option string) (xs ys : list call) :
  persisted initial (xs ++ ys) = persisted (persisted initial xs) ys.
Proof.
  revert initial. induction xs as [|c xs IH]; intros initial; [reflexivity|].
  destruct c; simpl; try apply IH.
  destruct (key =? connectedDBKey)%string; apply IH.
Qed.

Lemma persisted_update (initial value : option string) (l : list call) :
  persisted initial (l ++ [GlobalStateUpdate connectedDBKey value]) = value.
Proof. rewrite persisted_app. reflexivity. Qed.

(** Evaluating a run: a case for each answer of the host. *)
Ltac answers h :=
  repeat (cbn in *;
    match goal with
    | |- context [h ?l ?c] =>
        let E := fresh "E" in destruct (h l c) as [?|?] eqn:E
    | |- context [match ?x with Some _ => _ | None => _ end] =>
        let E := fresh "E" in destruct x eqn:E
    | |- context [if ?b then _ else _] =>
        let E := fresh "E" in destruct b eqn:E
    end);
  cbn in *.

(** X8: the commands keep the persisted id in step with the connected
    node: if, before a command that takes a node, the global state holds
    the id of [ext.connectedMongoDB] (nothing when it is undefined), it
    does so after the command, whatever the host answers and whether the
    command returns or throws. *)
Theorem connection_stays_in_sync (initial : option string)
    (command : option Node -> prog unit) (contextValue : string)
    (h : behaviour) (node : option Node) (w : world) :
  In (command, contextValue) nodeCommands ->
  inSync initial w ->
  inSync initial (snd (run h (command node) w)).
Proof.
  unfold inSync. destruct w as [connected l]. simpl. intros Hin Hsync.
  repeat (destruct Hin as [Hin|Hin]; [injection Hin as <- _|]);
    try contradiction;
    unfold createMongoDatabase, createMongoCollection, createMongoDocument,
      connectMongoDB, deleteMongoDB, deleteMongoCollection,
      deleteMongoDocument, openCollection, orPick, perform, fire,
      readConnected, writeConnected;
    destruct node;
    answers h;
    rewrite ?persisted_app; simpl; rewrite ?Hsync; try reflexivity;
    try (rewrite <- Hsync; reflexivity).
Qed.

(** X9: when [connectMongoDB] returns, [ext.connectedMongoDB] is the
    node it was given, or the node the picker answered with when it was
    given none; the language client was asked to connect to that node's
    database, and the global state holds that node's id. *)
Theorem connect_returns_connected (h : behaviour) (node : option Node)
    (w w' : world) :
  run h (connectMongoDB node) w = (Returned tt, w') ->
  exists n,
    (node = Some n \/
     node = None /\ h (calls w) (ShowNodePicker databaseContextValue) = Ok n) /\
    connectedMongoDB w' = Some n /\
    In (Connect (connectionString n) (databaseName n))
       (made h (connectMongoDB node) w) /\
    forall initial, persisted initial (calls w') = Some (id n).
Proof.
  intros Hrun.
  assert (Hmade : calls w' = (calls w ++ made h (connectMongoDB node) w)%list).
  { rewrite <- calls_made, Hrun. reflexivity. }
  revert Hmade. generalize (made h (connectMongoDB node) w). intros later Hl.
  revert Hrun. destruct w as [connected l]. simpl in *.
  unfold connectMongoDB, orPick, perform, fire, readConnected, writeConnected.
  destruct node as [n|]; answers h; intros Hrun;
    try discriminate Hrun; inversion Hrun; subst; clear Hrun; simpl in *;
    (eexists; split; [first [left; reflexivity | right; split; reflexivity] |]);
    (split; [reflexivity|]);
    (split;
     [ rewrite <- ?app_assoc in Hl; apply app_inv_head in Hl; subst later;
       simpl; tauto
     | intros initial; rewrite <- ?app_assoc, !persisted_app; reflexivity ]).
Qed.

(** X10: when the language client cannot connect, [connectMongoDB]
    throws its error and has changed nothing: [ext.connectedMongoDB] is
    as before, the global state is not updated and no node is refreshed. *)
Theorem connect_failure_changes_nothing (h : behaviour) (n : Node) (w : world)
    (e : HostError) :
  h (calls w) (Connect (connectionString n) (databaseName n)) = Failed e ->
  run h (connectMongoDB (Some n)) w
  = (Thrown e,
     mkWorld (connectedMongoDB w)
       (calls w ++ [Connect (connectionString n) (databaseName n)])).
Proof.
  intros H. destruct w as [connected l]. simpl in *.
  unfold connectMongoDB, orPick, perform, fire, readConnected, writeConnected.
  cbn. rewrite H. reflexivity.
Qed.

(** X11: when the language client connects and the refresh of the node
    fails, [connectMongoDB] throws the error of the refresh, and the
    connection is switched all the same: [ext.connectedMongoDB] is the new
    node and the global state was updated with its id; the node connected
    before is neither looked up nor refreshed. *)
Theorem refresh_failure_keeps_new_connection (h : behaviour) (n : Node)
    (w : world) (e : HostError) :
  let connect := Connect (connectionString n) (databaseName n) in
  let update := GlobalStateUpdate connectedDBKey (Some (id n)) in
  h (calls w) connect = Ok tt ->
  h (calls w ++ [connect; update])%list (Refresh n) = Failed e ->
  run h (connectMongoDB (Some n)) w
  = (Thrown e, mkWorld (Some n) (calls w ++ [connect; update; Refresh n])).
Proof.
  intros connect update H1 H2. subst connect update.
  destruct w as [connected l]. simpl in *.
  unfold connectMongoDB, orPick, perform, fire, readConnected, writeConnected.
  cbn. rewrite H1. cbn. rewrite <- !app_assoc. simpl. rewrite H2. reflexivity.
Qed.

(** X12: [deleteMongoDB] disconnects exactly when the node was deleted
    and a node with the same id is connected; then [ext.connectedMongoDB]
    is undefined and the persisted id removed. Otherwise both are as
    before: deleting while no node is connected leaves a persisted id in
    place. *)
Theorem delete_disconnects_iff (h : behaviour) (n : Node) (w : world) :
  let w' := snd (run h (deleteMongoDB (Some n)) w) in
  let disconnected := In Disconnect (made h (deleteMongoDB (Some n)) w) in
  (disconnected <->
   h (calls w) (DeleteNode n) = Ok tt /\
   exists c, connectedMongoDB w = Some c /\ id c = id n) /\
  (disconnected ->
   connectedMongoDB w' = None /\
   forall initial, persisted initial (calls w') = None) /\
  (~ disconnected ->
   connectedMongoDB w' = connectedMongoDB w /\
   forall initial, persisted initial (calls w') = persisted initial (calls w)).
Proof.
  intros w' disconnected. subst w' disconnected.
  destruct w as [connected l].
  assert (Hmade : forall later,
    calls (snd (run h (deleteMongoDB (Some n)) (mkWorld connected l)))
    = (l ++ later)%list ->
    made h (deleteMongoDB (Some n)) (mkWorld connected l) = later).
  { intros later. apply made_unique. }
  revert Hmade. generalize (made h (deleteMongoDB (Some n)) (mkWorld connected l)).
  unfold deleteMongoDB, orPick, perform, fire, readConnected, writeConnected.
  intros later Hmade. simpl in *.
  assert (Hnone : forall (P : Prop),
    ~ P ->
    (In Disconnect [DeleteNode n] <-> P) /\
    (In Disconnect [DeleteNode n] ->
     connected = None /\
     forall initial, persisted initial (l ++ [DeleteNode n]) = None) /\
    (~ In Disconnect [DeleteNode n] ->
     connected = connected /\
     forall initial,
       persisted initial (l ++ [DeleteNode n]) = persisted initial l)).
  { intros P HP.
    assert (Hnot : ~ In Disconnect [DeleteNode n])
      by (intros [H|[]]; discriminate H).
    split; [split; [intros H; now apply Hnot in H | intros H; now apply HP in H]|].
    split; [intros H; now apply Hnot in H|].
    intros _. split; [reflexivity|].
    intros initial. rewrite persisted_app. reflexivity. }
  destruct (h l (DeleteNode n)) as [[]|e] eqn:E; cbn in *.
  - destruct connected as [c|]; cbn in *.
    + destruct (String.eqb_spec (id c) (id n)) as [Eid|Nid]; cbn in *.
      * rewrite (Hmade [DeleteNode n; GlobalStateUpdate connectedDBKey None; Disconnect])
          by (rewrite <- !app_assoc; reflexivity).
        assert (Hin : In Disconnect
          [DeleteNode n; GlobalStateUpdate connectedDBKey None; Disconnect])
          by (simpl; tauto).
        split; [split; intros _; [|exact Hin]|].
        { split; [reflexivity|]. exists c. now split. }
        split; [intros _ | intros H; now apply H in Hin].
        split; [reflexivity|].
        intros initial. rewrite !persisted_app. reflexivity.
      * rewrite (Hmade [DeleteNode n]) by reflexivity.
        apply Hnone. intros (_ & c' & [= <-] & Hc). contradiction.
    + rewrite (Hmade [DeleteNode n]) by reflexivity.
      apply Hnone. intros (_ & c' & Hc & _). discriminate Hc.
  - rewrite (Hmade [DeleteNode n]) by reflexivity.
    apply Hnone. intros (Hc & _). discriminate Hc.
Qed.

(** The definitions a run of a command unfolds. *)
Ltac unfold_commands :=
  unfold createMongoDatabase, createMongoCollection, createMongoDocument,
    connectMongoDB, deleteMongoDB, deleteMongoCollection,
    deleteMongoDocument, openCollection, loadPersistedMongoDB,
    orPick, perform, fire, readConnected, writeConnected.

(** X13: a command that is given a node never shows the node picker,
    whatever the host answers. *)
Theorem no_picker_with_a_node (command : option Node -> prog unit)
    (contextValue : string) (h : behaviour) (n : Node) (w : world) :
  In (command, contextValue) nodeCommands ->
  forallb (fun c => negb (isPicker c)) (made h (command (Some n)) w) = true.
Proof.
  destruct w as [connected l]. intros Hin.
  repeat (destruct Hin as [Hin|Hin]; [injection Hin as <- _|]);
    try contradiction;
    unfold made; unfold_commands; answers h;
    rewrite <- ?app_assoc;
    rewrite ?skipn_app, ?skipn_all, ?Nat.sub_diag; reflexivity.
Qed.

(** X14: a command that is given no node shows the picker for its own
    kind of node first; when the picker fails, as when it is dismissed,
    the command throws that error and does nothing else: no call is made
    and [ext.connectedMongoDB] is as before. *)
Theorem dismissed_picker_does_nothing (command : option Node -> prog unit)
    (contextValue : string) (h : behaviour) (w : world) (e : HostError) :
  In (command, contextValue) nodeCommands ->
  h (calls w) (ShowNodePicker contextValue) = Failed e ->
  run h (command None) w
  = (Thrown e,
     mkWorld (connectedMongoDB w) (calls w ++ [ShowNodePicker contextValue])).
Proof.
  destruct w as [connected l]. simpl. intros Hin Hfail.
  repeat (destruct Hin as [Hin|Hin]; [injection Hin as <- <-|]);
    try contradiction;
    unfold_commands; cbn; rewrite Hfail; reflexivity.
Qed.

(** X15: once the child is created, the calls [createMongoDatabase]
    makes are [createChild] and then the connect command, executed on the
    child; those of [createMongoCollection] are [createChild] and then the
    connect command, executed on the parent of the child.  Neither makes
    another call of its own; what the executed command does is not theirs. *)
Theorem created_child_is_connected (h : behaviour) (n child : Node) (w : world) :
  h (calls w) (CreateChild n) = Ok child ->
  made h (createMongoDatabase (Some n)) w
  = [CreateChild n; ExecuteCommand "cosmosDB.connectMongoDB" (Some child)] /\
  made h (createMongoCollection (Some n)) w
  = [CreateChild n; ExecuteCommand "cosmosDB.connectMongoDB" (parent child)].
Proof.
  destruct w as [connected l]. simpl. intros Hchild.
  split; unfold made; unfold_commands; cbn; rewrite Hchild;
    answers h; rewrite <- ?app_assoc;
    rewrite ?skipn_app, ?skipn_all, ?Nat.sub_diag; reflexivity.
Qed.

(** X16: the callback of [loadPersistedMongoDB] first marks its errors
    as not to be displayed and itself as an activation event, then reads
    the persisted id.  It executes a command exactly when the id is a
    string that is not empty, the tree finds its node and the language
    client gets ready: the connect command, on that node. *)
Theorem persisted_connection_loaded (h : behaviour) (w : world) :
  let before :=
    (calls w ++ [SetSuppressErrorDisplay true;
                 SetProperty "isActivationEvent" "true"])%list in
  let get := GlobalStateGet connectedDBKey in
  (exists later,
     made h loadPersistedMongoDB w
     = SetSuppressErrorDisplay true :: SetProperty "isActivationEvent" "true"
       :: get :: later) /\
  forall command argument,
    In (ExecuteCommand command argument) (made h loadPersistedMongoDB w) <->
    command = "cosmosDB.connectMongoDB" /\
    exists i n,
      h before get = Ok (Some i) /\ i <> "" /\
      h (before ++ [get])%list (FindNode i) = Ok (Some n) /\
      h (before ++ [get; FindNode i])%list OnReady = Ok tt /\
      argument = Some n.
Proof.
  intros before get. subst before get.
  destruct w as [connected l]. simpl calls.
  unfold made; unfold_commands. cbn.
  rewrite <- !app_assoc. simpl app.
  destruct (h (l ++ [SetSuppressErrorDisplay true;
                     SetProperty "isActivationEvent" "true"])%list
              (GlobalStateGet connectedDBKey)) as [[i|]|e] eqn:E1; cbn.
  2, 3: rewrite <- ?app_assoc, skipn_app, skipn_all, Nat.sub_diag; simpl;
    (split; [eexists; reflexivity|]);
    intros command argument; split;
    [ intros H; repeat (destruct H as [H|H]; try discriminate H); destruct H
    | intros (_ & i' & n' & H & _); discriminate H ].
  destruct (cpUtils.truthy i) eqn:Ei; cbn.
  2: { rewrite <- ?app_assoc, skipn_app, skipn_all, Nat.sub_diag; simpl.
       split; [eexists; reflexivity|].
       intros command argument; split.
       - intros H; repeat (destruct H as [H|H]; try discriminate H); destruct H.
       - intros (_ & i' & n' & [= <-] & Hne & _).
         destruct i; [contradiction | discriminate Ei]. }
  assert (Hi : i <> "") by (destruct i; [discriminate Ei | discriminate]).
  rewrite <- !app_assoc. simpl app.
  destruct (h (l ++ [SetSuppressErrorDisplay true;
                     SetProperty "isActivationEvent" "true";
                     GlobalStateGet connectedDBKey])%list
              (FindNode i)) as [[n|]|e] eqn:E2; cbn.
  2, 3: rewrite <- ?app_assoc, skipn_app, skipn_all, Nat.sub_diag; simpl;
    (split; [eexists; reflexivity|]);
    intros command argument; split;
    [ intros H; repeat (destruct H as [H|H]; try discriminate H); destruct H
    | intros (_ & i' & n' & [= <-] & _ & H & _);
      rewrite <- ?app_assoc in H; simpl in H; rewrite E2 in H; discriminate H ].
  rewrite <- !app_assoc. simpl app.
  destruct (h (l ++ [SetSuppressErrorDisplay true;
                     SetProperty "isActivationEvent" "true";
                     GlobalStateGet connectedDBKey; FindNode i])%list
              OnReady) as [[]|e] eqn:E3; cbn.
  2: { rewrite <- ?app_assoc, skipn_app, skipn_all, Nat.sub_diag; simpl.
       split; [eexists; reflexivity|].
       intros command argument; split.
       - intros H; repeat (destruct H as [H|H]; try discriminate H); destruct H.
       - intros (_ & i' & n' & [= <-] & _ & _ & H & _).
         rewrite <- ?app_assoc in H; simpl in H; rewrite E3 in H; discriminate H. }
  rewrite <- ?app_assoc. simpl app.
  match goal with
  | |- context [h ?l' (ExecuteCommand ?c ?a)] =>
      destruct (h l' (ExecuteCommand c a)) as [[]|?]
  end; cbn;
    rewrite <- ?app_assoc, skipn_app, skipn_all, Nat.sub_diag; simpl;
    (split; [eexists; reflexivity|]);
    intros command argument; (split;
    [ intros H; repeat (destruct H as [H|H]; try discriminate H); [|destruct H];
      injection H as <- <-; (split; [reflexivity|]);
      exists i, n; rewrite <- ?app_assoc; simpl; repeat split; assumption
    | intros (-> & i' & n' & [= <-] & _ & H & _ & ->);
      rewrite <- ?app_assoc in H; simpl in H; rewrite E2 in H;
      injection H as <-; simpl; tauto ]).
Qed.

End Properties.

(** ** The properties on the example host *)

#[local] Existing Instance exampleHost.

(** Connecting to [db1] while [db0] is connected and persisted. *)
Lemma connection_stays_in_sync_witness :
  let w := mkWorld (host := exampleHost) (Some "db0")
             [GlobalStateUpdate connectedDBKey (Some "db0")] in
  inSync None w /\
  inSync None (snd (run obliging (connectMongoDB (host := exampleHost) (Some "db1")) w)).
Proof.
  intros w. split; [reflexivity|].
  apply (connection_stays_in_sync (host := exampleHost) None connectMongoDB
           databaseContextValue obliging (Some "db1") w).
  - simpl. tauto.
  - reflexivity.
Defined.

Lemma connect_returns_connected_witness :
  let w := mkWorld (host := exampleHost) None [] in
  exists w',
    run obliging (connectMongoDB (host := exampleHost) (Some "db1")) w = (Returned tt, w') /\
    exists n, connectedMongoDB w' = Some n /\
              forall initial, persisted initial (calls w') = Some (id n).
Proof.
  intros w. eexists. split; [reflexivity|].
  destruct (connect_returns_connected (host := exampleHost) obliging
              (Some "db1") w _ eq_refl) as (n & _ & Hc & _ & Hp).
  exists n. split; [exact Hc | exact Hp].
Defined.

Lemma connect_failure_changes_nothing_witness :
  let w := mkWorld (host := exampleHost) (Some "db0") [] in
  run unreachable (connectMongoDB (host := exampleHost) (Some "db1")) w
  = (Thrown (host := exampleHost) "ECONNREFUSED",
     mkWorld (host := exampleHost) (Some "db0")
       [Connect "mongodb://localhost" "db1"]).
Proof.
  intros w.
  apply (connect_failure_changes_nothing (host := exampleHost) unreachable
           "db1" w "ECONNREFUSED").
  reflexivity.
Defined.

Lemma refresh_failure_keeps_new_connection_witness :
  let w := mkWorld (host := exampleHost) (Some "db0") [] in
  run stale (connectMongoDB (host := exampleHost) (Some "db1")) w
  = (Thrown (host := exampleHost) "refresh failed",
     mkWorld (host := exampleHost) (Some "db1")
       [Connect "mongodb://localhost" "db1";
        GlobalStateUpdate connectedDBKey (Some "db1"); Refresh "db1"]).
Proof.
  intros w.
  apply (refresh_failure_keeps_new_connection (host := exampleHost) stale
           "db1" w "refresh failed"); reflexivity.
Defined.

Lemma no_picker_with_a_node_witness :
  forallb (fun c => negb (isPicker c))
    (made obliging (deleteMongoDB (host := exampleHost) (Some "db0"))
       (mkWorld (host := exampleHost) (Some "db0") []))
  = true.
Proof.
  apply (no_picker_with_a_node (host := exampleHost) deleteMongoDB
           databaseContextValue).
  simpl. tauto.
Defined.

Lemma dismissed_picker_does_nothing_witness :
  let w := mkWorld (host := exampleHost) (Some "db0") [] in
  run dismissive (deleteMongoDB (host := exampleHost) None) w
  = (Thrown (host := exampleHost) "cancelled",
     mkWorld (host := exampleHost) (Some "db0") [ShowNodePicker "mongoDb"]).
Proof.
  intros w.
  exact (dismissed_picker_does_nothing (host := exampleHost) deleteMongoDB
           databaseContextValue dismissive w "cancelled"
           ltac:(simpl; tauto) eq_refl).
Defined.

Lemma created_child_is_connected_witness :
  let w := mkWorld (host := exampleHost) None [] in
  made obliging (createMongoCollection (host := exampleHost) (Some "db1")) w
  = [CreateChild (host := exampleHost) "db1";
     ExecuteCommand "cosmosDB.connectMongoDB" (Some "parent of db1/child")].
Proof.
  intros w.
  apply (created_child_is_connected (host := exampleHost) obliging "db1"
           "db1/child" w).
  reflexivity.
Defined.

End mongoCommands.
